(** * Rank-grouped application menus (packages/mainmenu/src/menus.ts)

    A shallow embedding of [JupyterLabMenu.addGroup] and of the kernel
    delegation registry of [KernelMenu], with the properties of the
    flat item list and of the command enablement / execution pairs. *)

From Stdlib Require Import String ZArith List Bool Lia Permutation.
Import ListNotations.
Local Open Scope Z_scope.

Set Implicit Arguments.

(** ** Command identifiers of the semantic extension points *)

Module CommandIDs.

Definition interruptKernel : string := "kernel:interrupt"%string.

Definition restartKernel : string := "kernel:restart"%string.

Definition changeKernel : string := "kernel:change"%string.

End CommandIDs.

(** ** Numbers

    A rank is a JavaScript [number].  The integers stand for its finite
    values, which order as the integers do; the two infinities and [NaN]
    are kept because [addGroup] accepts them and the comparator subtracts
    them. *)

Inductive number : Type :=
  | NegInfinity : number
  | Num (z : Z) : number
  | Infinity : number
  | NaN : number.

Coercion Num : Z >-> number.

Module Number.

(** [x - y]: [NaN] when either is [NaN] or both are the same infinity. *)
Definition sub (x y : number) : number :=
  match x with
  | NaN => NaN
  | Num a =>
      match y with
      | NaN => NaN
      | Num b => Num (a - b)
      | Infinity => NegInfinity
      | NegInfinity => Infinity
      end
  | Infinity =>
      match y with
      | NaN | Infinity => NaN
      | Num _ | NegInfinity => Infinity
      end
  | NegInfinity =>
      match y with
      | NaN | NegInfinity => NaN
      | Num _ | Infinity => NegInfinity
      end
  end.

(** [x > 0] *)
Definition gt0 (x : number) : bool :=
  match x with
  | Num z => 0 <? z
  | Infinity => true
  | NegInfinity | NaN => false
  end.

(** [x < y] *)
Definition ltb (x y : number) : bool :=
  match x with
  | NaN | Infinity => false
  | Num a =>
      match y with
      | Num b => a <? b
      | Infinity => true
      | NegInfinity | NaN => false
      end
  | NegInfinity =>
      match y with
      | Num _ | Infinity => true
      | NegInfinity | NaN => false
      end
  end.

(** [x <= y] *)
Definition leb (x y : number) : bool :=
  match x with
  | NaN => false
  | Infinity =>
      match y with
      | Infinity => true
      | _ => false
      end
  | Num a =>
      match y with
      | Num b => a <=? b
      | Infinity => true
      | NegInfinity | NaN => false
      end
  | NegInfinity =>
      match y with
      | NaN => false
      | _ => true
      end
  end.

Definition isNaN (x : number) : bool :=
  match x with
  | NaN => true
  | _ => false
  end.

End Number.

(** ** The array helpers the menus call *)

Module ArrayExt.

(** Modelled from the spec: [ArrayExt.insert] belongs to the external
    package [@phosphor/algorithm], which is not under src/.  It inserts
    [value] at [index] and shifts the tail; a negative index counts from
    the end and every index is clamped to the bounds of the array. *)
Definition insert {T : Type} (array : list T) (index : Z) (value : T) : list T :=
  let n := Z.of_nat (length array) in
  let index := if index <? 0 then Z.max 0 (index + n) else Z.min index n in
  firstn (Z.to_nat index) array ++ value :: skipn (Z.to_nat index) array.

(** The [while (span > 0)] loop of the bisection.  [fuel] bounds the
    number of iterations; the span shrinks at every one, so a fuel of the
    initial span is never used up. *)
Fixpoint upperBound_loop {T U : Type} (fuel : nat) (array : list T) (value : U)
    (fn : T -> U -> number) (begin span : nat) : nat :=
  match fuel with
  | O => begin
  | S fuel' =>
      if (0 <? span)%nat then
        let half := Nat.div2 span in
        let middle := (begin + half)%nat in
        match nth_error array middle with
        | Some element =>
            if Number.gt0 (fn element value)
            then upperBound_loop fuel' array value fn begin half
            else upperBound_loop fuel' array value fn (middle + 1)%nat
                   (span - (half + 1))%nat
        | None => begin   (* unreachable: [middle] stays within the array *)
        end
      else begin
  end.

(** Modelled from the spec: [ArrayExt.upperBound] belongs to
    [@phosphor/algorithm], not under src/.  The spec describes a search in
    O(log n) for the first position whose existing element compares
    strictly greater than the new value: the bisection of the package over
    the whole array, which probes the middle of the remaining span and
    keeps the left part when [fn(array[middle], value) > 0] and the right
    part otherwise. *)
Definition upperBound {T U : Type} (array : list T) (value : U)
    (fn : T -> U -> number) : nat :=
  let n := length array in
  if (n =? 0)%nat then O else upperBound_loop n array value fn 0 n.

(** Modelled from the spec: [ArrayExt.findFirstValue] belongs to
    [@phosphor/algorithm], not under src/.  It returns the first element
    (in array order) satisfying the predicate, or [undefined]. *)
Fixpoint findFirstValue {T : Type} (array : list T) (fn : T -> bool) : option T :=
  match array with
  | [] => None
  | element :: rest =>
      if fn element then Some element else findFirstValue rest fn
  end.

End ArrayExt.

(** ** The toolkit menu: a flat list of item descriptors *)

Module Menu.

(** [Menu.IItemOptions]: a command reference, a separator marker or a
    nested submenu (named by its title). *)
Inductive IItemOptions : Type :=
  | separator : IItemOptions
  | command (id : string) : IItemOptions
  | submenu (title : string) : IItemOptions.

Definition IItemOptions_eqb (x y : IItemOptions) : bool :=
  match x, y with
  | separator, separator => true
  | command a, command b => String.eqb a b
  | submenu a, submenu b => String.eqb a b
  | _, _ => false
  end.

Definition isSeparator (x : IItemOptions) : bool :=
  match x with separator => true | _ => false end.

(** Modelled from the spec: [Menu.insertItem] belongs to the external
    package [@phosphor/widgets], not under src/.  The item is inserted at
    the given index of the flat item list, the index being clamped to the
    bounds of the list. *)
Definition insertItem (items : list IItemOptions) (index : Z)
    (options : IItemOptions) : list IItemOptions :=
  let i := Z.max 0 (Z.min index (Z.of_nat (length items))) in
  ArrayExt.insert items i options.

(** Modelled from the spec: [Menu.addItem] of [@phosphor/widgets] appends
    the item at the end of the flat item list. *)
Definition addItem (items : list IItemOptions) (options : IItemOptions)
    : list IItemOptions :=
  insertItem items (Z.of_nat (length items)) options.

End Menu.

Import Menu.

(** ** Private data: rank groups and their comparator *)

Module Private.

Record IRankGroup : Type := mkRankGroup {
  items : list IItemOptions;
  rank : number
}.

Definition itemCmp (first second : IRankGroup) : number :=
  Number.sub (rank first) (rank second).

End Private.

Import Private.

(** ** JupyterLabMenu *)

Record JupyterLabMenu : Type := mkMenu {
  menuItems : list IItemOptions;   (* the item list owned by the [Menu] base class *)
  startIndex : Z;
  _groups : list IRankGroup
}.

(** The constructor: an empty menu, [startIndex = 0], no groups. *)
Definition JupyterLabMenu_new : JupyterLabMenu :=
  {| menuItems := []; startIndex := 0; _groups := [] |}.

(** The [for (let i = 0; i < groupIndex; ++i)] loop of [addGroup];
    [count] is the number of iterations left. *)
Fixpoint advanceInsertIndex (count : nat) (groups : list IRankGroup)
    (insertIndex : Z) : Z :=
  match count with
  | O => insertIndex
  | S count' =>
      advanceInsertIndex count' groups
        (if 0 <? Z.of_nat (length groups)
         then insertIndex + (Z.of_nat (length groups) + 1)
         else insertIndex)
  end.

(** The [for (let item of items) this.insertItem(insertIndex++, item)]
    loop of [addGroup]. *)
Fixpoint insertGroupItems (group : list IItemOptions) (insertIndex : Z)
    (flat : list IItemOptions) : list IItemOptions * Z :=
  match group with
  | [] => (flat, insertIndex)
  | item :: rest =>
      insertGroupItems rest (insertIndex + 1) (insertItem flat insertIndex item)
  end.

Definition defaultRank (rank : option number) : number :=
  match rank with None => Num 100 | Some r => r end.

(** The position of the new group among the existing ones. *)
Definition addGroup_groupIndex (menu : JupyterLabMenu)
    (items : list IItemOptions) (rank : option number) : nat :=
  ArrayExt.upperBound (_groups menu) (mkRankGroup items (defaultRank rank)) itemCmp.

(** The group list after the positional insert. *)
Definition addGroup_groups (menu : JupyterLabMenu)
    (items : list IItemOptions) (rank : option number) : list IRankGroup :=
  ArrayExt.insert (_groups menu)
    (Z.of_nat (addGroup_groupIndex menu items rank))
    (mkRankGroup items (defaultRank rank)).

(** The value of [insertIndex] when the offset loop ends. *)
Definition addGroup_insertIndex (menu : JupyterLabMenu)
    (items : list IItemOptions) (rank : option number) : Z :=
  advanceInsertIndex (addGroup_groupIndex menu items rank)
    (addGroup_groups menu items rank) (startIndex menu).

Definition addGroup (menu : JupyterLabMenu) (items : list IItemOptions)
    (rank : option number) : JupyterLabMenu :=
  let insertIndex := addGroup_insertIndex menu items rank in
  let '(flat, insertIndex) :=
    if 0 <? insertIndex
    then (insertItem (menuItems menu) insertIndex separator, insertIndex + 1)
    else (menuItems menu, insertIndex) in
  let '(flat, _) := insertGroupItems items insertIndex flat in
  {| menuItems := flat;
     startIndex := startIndex menu;
     _groups := addGroup_groups menu items rank |}.

(** A sequence of [addGroup] calls, first call first. *)
Definition addGroups (menu : JupyterLabMenu)
    (calls : list (list IItemOptions * option number)) : JupyterLabMenu :=
  fold_left (fun m call => addGroup m (fst call) (snd call)) calls menu.

(** The index at which [Menu.insertItem] really inserts. *)
Definition clampIndex (index : Z) (n : nat) : nat :=
  Z.to_nat (Z.max 0 (Z.min index (Z.of_nat n))).

(** A group that is non-empty and does not begin with a separator. *)
Definition properGroup (items : list IItemOptions) : bool :=
  match items with
  | [] => false
  | item :: _ => negb (isSeparator item)
  end.

(** ** Reading the flat item list *)

(** Index of the first occurrence of an item. *)
Fixpoint position (x : IItemOptions) (flat : list IItemOptions) : option nat :=
  match flat with
  | [] => None
  | y :: rest =>
      if IItemOptions_eqb x y then Some O
      else option_map S (position x rest)
  end.

(** [x] occurs in the flat list strictly before [y]. *)
Definition before (x y : IItemOptions) (flat : list IItemOptions) : bool :=
  match position x flat, position y flat with
  | Some i, Some j => Nat.ltb i j
  | _, _ => false
  end.

(** Every item of group [g] occurs before every item of group [h]. *)
Definition itemsBefore (g h flat : list IItemOptions) : bool :=
  forallb (fun x => forallb (fun y => before x y flat) h) g.

(** The flat list without its separators. *)
Definition withoutSeparators (flat : list IItemOptions) : list IItemOptions :=
  filter (fun x => negb (isSeparator x)) flat.

(** The group list is in ascending rank order. *)
Fixpoint rankSorted (groups : list IRankGroup) : Prop :=
  match groups with
  | [] => True
  | g :: rest =>
      Forall (fun h => Number.leb (rank g) (rank h) = true) rest
      /\ rankSorted rest
  end.

(** No group has the rank [NaN]. *)
Definition rankedGroups (groups : list IRankGroup) : Prop :=
  Forall (fun g => Number.isNaN (rank g) = false) groups.

(** The first position whose element compares strictly greater than the
    value (the array length when there is none): what the bisection finds
    in an array that is sorted for [fn]. *)
Fixpoint firstGreater {T U : Type} (array : list T) (value : U)
    (fn : T -> U -> number) : nat :=
  match array with
  | [] => O
  | element :: rest =>
      if Number.gt0 (fn element value) then O
      else S (firstGreater rest value fn)
  end.

(** The offset rule in the words of the specification: start at
    [startIndex] and, for every group preceding the new group's position,
    advance by that group's item count plus one. *)
Definition spec_insertIndex (menu : JupyterLabMenu)
    (items : list IItemOptions) (rank : option number) : Z :=
  fold_left (fun offset g => offset + (Z.of_nat (length (Private.items g)) + 1))
    (firstn (addGroup_groupIndex menu items rank) (addGroup_groups menu items rank))
    (startIndex menu).

(** ** KernelMenu *)

(** A JavaScript error value; the dispatch code can only raise this one. *)
Inductive JSError : Type :=
  | TypeError : JSError.

Section Kernel.

(** The toolkit's widgets and what a delegate returns (a promise). *)
Variables (Widget Result : Type).

(** [IMainMenu.IKernelMenu.IKernelUser]: a tracker and three optional
    delegates.  Only [tracker.has] is used by the menu. *)
Record IKernelUser : Type := mkKernelUser {
  tracker_has : Widget -> bool;
  interruptKernel : option (Widget -> Result);
  restartKernel : option (Widget -> Result);
  changeKernel : option (Widget -> Result)
}.

(** How a command's [execute] completes. *)
Inductive Completion : Type :=
  | Normal (value : Result) : Completion
  | Throw (error : JSError) : Completion.

Record KernelMenu : Type := mkKernelMenu {
  base : JupyterLabMenu;
  _users : list IKernelUser
}.

(** The constructor: [super(options)] and then the three seeded items. *)
Definition KernelMenu_new : KernelMenu :=
  let menu := JupyterLabMenu_new in
  let flat := addItem (menuItems menu) (command CommandIDs.interruptKernel) in
  let flat := addItem flat (command CommandIDs.restartKernel) in
  let flat := addItem flat (command CommandIDs.changeKernel) in
  {| base := {| menuItems := flat;
                startIndex := startIndex menu;
                _groups := _groups menu |};
     _users := [] |}.

(** [addGroup] is inherited from [JupyterLabMenu]. *)
Definition KernelMenu_addGroup (km : KernelMenu) (items : list IItemOptions)
    (rank : option number) : KernelMenu :=
  {| base := addGroup (base km) items rank; _users := _users km |}.

Definition addUser (km : KernelMenu) (user : IKernelUser) : KernelMenu :=
  {| base := base km; _users := _users km ++ [user] |}.

Definition _findUser (km : KernelMenu) (widget : option Widget)
    : option IKernelUser :=
  match widget with
  | None => None
  | Some w => ArrayExt.findFirstValue (_users km) (fun el => tracker_has el w)
  end.

(** [!!user && !!user.f]: [undefined] is falsy, objects and functions are
    truthy. *)
Definition hasDelegate (f : IKernelUser -> option (Widget -> Result))
    (user : option IKernelUser) : bool :=
  match user with
  | None => false
  | Some u => match f u with None => false | Some _ => true end
  end.

(** [user!.f(widget)]: the non-null assertion has no run-time effect, so
    reading a property of [undefined] and calling [undefined] both raise a
    [TypeError]. *)
Definition callDelegate (f : IKernelUser -> option (Widget -> Result))
    (user : option IKernelUser) (widget : option Widget) : Completion :=
  match user with
  | None => Throw TypeError
  | Some u =>
      match f u with
      | None => Throw TypeError
      | Some delegate =>
          match widget with
          | Some w => Normal (delegate w)
          | None => Throw TypeError   (* unreachable: [_findUser] of [null] is [undefined] *)
          end
      end
  end.

(** The three commands registered by the constructor; [currentWidget]
    stands for [app.shell.currentWidget] at the time of the call. *)
Definition interruptKernel_isEnabled (km : KernelMenu)
    (currentWidget : option Widget) : bool :=
  let user := _findUser km currentWidget in
  hasDelegate interruptKernel user.

Definition interruptKernel_execute (km : KernelMenu)
    (currentWidget : option Widget) : Completion :=
  let widget := currentWidget in
  let user := _findUser km widget in
  callDelegate interruptKernel user widget.

Definition restartKernel_isEnabled (km : KernelMenu)
    (currentWidget : option Widget) : bool :=
  let user := _findUser km currentWidget in
  hasDelegate restartKernel user.

Definition restartKernel_execute (km : KernelMenu)
    (currentWidget : option Widget) : Completion :=
  let widget := currentWidget in
  let user := _findUser km widget in
  callDelegate restartKernel user widget.

Definition changeKernel_isEnabled (km : KernelMenu)
    (currentWidget : option Widget) : bool :=
  let user := _findUser km currentWidget in
  hasDelegate changeKernel user.

Definition changeKernel_execute (km : KernelMenu)
    (currentWidget : option Widget) : Completion :=
  let widget := currentWidget in
  let user := _findUser km widget in
  callDelegate changeKernel user widget.

(** The three kernel actions, to state a property once for all of them. *)
Inductive KernelAction : Type :=
  | Interrupt : KernelAction
  | Restart : KernelAction
  | Change : KernelAction.

Definition commandId (a : KernelAction) : string :=
  match a with
  | Interrupt => CommandIDs.interruptKernel
  | Restart => CommandIDs.restartKernel
  | Change => CommandIDs.changeKernel
  end.

Definition delegateOf (a : KernelAction) (u : IKernelUser)
    : option (Widget -> Result) :=
  match a with
  | Interrupt => interruptKernel u
  | Restart => restartKernel u
  | Change => changeKernel u
  end.

(** The command registry: [isEnabled] and [execute] of the command
    registered under [commandId a]. *)
Definition isEnabled (a : KernelAction) (km : KernelMenu)
    (currentWidget : option Widget) : bool :=
  match a with
  | Interrupt => interruptKernel_isEnabled km currentWidget
  | Restart => restartKernel_isEnabled km currentWidget
  | Change => changeKernel_isEnabled km currentWidget
  end.

Definition execute (a : KernelAction) (km : KernelMenu)
    (currentWidget : option Widget) : Completion :=
  match a with
  | Interrupt => interruptKernel_execute km currentWidget
  | Restart => restartKernel_execute km currentWidget
  | Change => changeKernel_execute km currentWidget
  end.

(** [u] is the first user, in registration order, whose tracker owns [w]. *)
Definition firstOwner (users : list IKernelUser) (w : Widget)
    (u : IKernelUser) : Prop :=
  exists earlier later,
    users = earlier ++ u :: later /\
    tracker_has u w = true /\
    Forall (fun v => tracker_has v w = false) earlier.

End Kernel.

Arguments Throw {Result} error.
Arguments Normal {Result} value.

(** The flat list begins with the items of [g]. *)
Fixpoint startsWith (g flat : list IItemOptions) : bool :=
  match g, flat with
  | [], _ => true
  | x :: g', y :: flat' => IItemOptions_eqb x y && startsWith g' flat'
  | _ :: _, [] => false
  end.

(** A separator immediately followed by the items of [g] occurs in the
    flat list. *)
Fixpoint separatorBefore (g flat : list IItemOptions) : bool :=
  match flat with
  | [] => false
  | _ :: rest => startsWith (separator :: g) flat || separatorBefore g rest
  end.

(** What holds of a menu whose groups were all proper: it does not begin
    with a separator, and it is empty only while it has no group. *)
Definition properMenu (menu : JupyterLabMenu) : Prop :=
  startIndex menu = 0 /\
  hd_error (menuItems menu) <> Some separator /\
  (menuItems menu = [] -> _groups menu = []).

(** [l] is [l'] with some elements left out: the elements of [l] occur
    in [l'] in the same order. *)
Inductive Embeds {T : Type} : list T -> list T -> Prop :=
  | Embeds_nil : Embeds [] []
  | Embeds_skip (x : T) (l l' : list T) : Embeds l l' -> Embeds l (x :: l')
  | Embeds_keep (x : T) (l l' : list T) : Embeds l l' -> Embeds (x :: l) (x :: l').

(** The [rankGroup] object that [addGroup] builds for a call. *)
Definition rankGroupOf (call : list IItemOptions * option number) : IRankGroup :=
  mkRankGroup (fst call) (defaultRank (snd call)).

(** The calls whose rank is not above [rank]. *)
Definition notAbove (rank : option number)
    (call : list IItemOptions * option number) : bool :=
  Number.leb (defaultRank (snd call)) (defaultRank rank).

(** The calls whose rank [rank] is below. *)
Definition below (rank : option number)
    (call : list IItemOptions * option number) : bool :=
  Number.ltb (defaultRank rank) (defaultRank (snd call)).

(** The calls whose rank is not [NaN]. *)
Definition rankedCall (call : list IItemOptions * option number) : bool :=
  negb (Number.isNaN (defaultRank (snd call))).

(** ** Concrete call sequences *)

Module Calls.

Local Open Scope string_scope.

Definition a := command "a".
Definition b := command "b".
Definition c := command "c".

(** Scenario A of the specification, for arbitrary items. *)
Definition scenarioA (x y z : IItemOptions)
    : list (list IItemOptions * option number) :=
  [([x; y], Some (Num 50)); ([z], Some (Num 10))].

Definition a4 : list IItemOptions :=
  [command "a1"; command "a2"; command "a3"; command "a4"].

Definition a7 : list IItemOptions :=
  a4 ++ [command "a5"; command "a6"; command "a7"].

Definition x8 : list IItemOptions :=
  [command "x1"; command "x2"; command "x3"; command "x4";
   command "x5"; command "x6"; command "x7"; command "x8"].

(** A four-item group of rank 10, then a one-item group of rank 30. *)
Definition rankOrder : list (list IItemOptions * option number) :=
  [(a4, Some (Num 10)); ([b], Some (Num 30))].

(** Rank 10, then eight items of rank 5, then rank 10 again. *)
Definition equalRank : list (list IItemOptions * option number) :=
  [([a], Some (Num 10)); (x8, Some (Num 5)); ([b], Some (Num 10))].

(** Seven items of rank 10 and one of rank 20, with and without an empty
    group of rank 15 in between. *)
Definition withoutEmpty : list (list IItemOptions * option number) :=
  [(a7, Some (Num 10)); ([b], Some (Num 20))].

Definition withEmpty : list (list IItemOptions * option number) :=
  [(a7, Some (Num 10)); ([], Some (Num 15)); ([b], Some (Num 20))].

(** A [NaN] rank between two integer ranks. *)
Definition withNaN : list (list IItemOptions * option number) :=
  [([a], Some (Num 10)); ([b], Some NaN)].

(** An empty group followed by a one-item group. *)
Definition emptyFirst : list (list IItemOptions * option number) :=
  [([], Some (Num 10)); ([a], Some (Num 20))].

(** Scenario D of the specification, with a boolean for the widget kind
    ([true] for kind X, [false] for kind Y) and the delegate's result
    recording the widget it was called with. *)
Definition U1 : IKernelUser bool bool :=
  {| tracker_has := fun w => w;
     interruptKernel := None;
     restartKernel := Some (fun w => w);
     changeKernel := None |}.

Definition U2 : IKernelUser bool bool :=
  {| tracker_has := fun w => negb w;
     interruptKernel := None;
     restartKernel := None;
     changeKernel := None |}.

Definition scenarioD : KernelMenu bool bool :=
  addUser (addUser (KernelMenu_new bool bool) U1) U2.

(** A third user: it owns kind Y as [U2] does, and has a restart delegate. *)
Definition U3 : IKernelUser bool bool :=
  {| tracker_has := fun w => negb w;
     interruptKernel := None;
     restartKernel := Some (fun w => negb w);
     changeKernel := None |}.

(** A menu with one fixed item and the groups starting after it. *)
Definition oneFixed : JupyterLabMenu :=
  {| menuItems := [command "fixed"]; startIndex := 1; _groups := [] |}.

End Calls.
(** * Properties *)

(** ** Array helpers *)

Lemma insert_at (T : Type) (l : list T) (k : nat) (v : T) :
  (k <= length l)%nat ->
  ArrayExt.insert l (Z.of_nat k) v = firstn k l ++ v :: skipn k l.
Proof.
  intros Hk. unfold ArrayExt.insert.
  destruct (Z.ltb_spec (Z.of_nat k) 0) as [Hneg | _]; [lia |].
  rewrite Z.min_l by lia. now rewrite Nat2Z.id.
Qed.

Lemma clampIndex_le (index : Z) (n : nat) : (clampIndex index n <= n)%nat.
Proof. unfold clampIndex. lia. Qed.

Lemma insertItem_eq (flat : list IItemOptions) (index : Z) (x : IItemOptions) :
  insertItem flat index x =
  firstn (clampIndex index (length flat)) flat
    ++ x :: skipn (clampIndex index (length flat)) flat.
Proof.
  unfold insertItem.
  replace (Z.max 0 (Z.min index (Z.of_nat (length flat))))
    with (Z.of_nat (clampIndex index (length flat)))
    by (unfold clampIndex; lia).
  apply insert_at, clampIndex_le.
Qed.

Lemma addItem_eq (flat : list IItemOptions) (x : IItemOptions) :
  addItem flat x = flat ++ [x].
Proof.
  unfold addItem. rewrite insertItem_eq.
  replace (clampIndex (Z.of_nat (length flat)) (length flat)) with (length flat)
    by (unfold clampIndex; lia).
  now rewrite firstn_all, skipn_all.
Qed.

Lemma firstn_succ_insert (T : Type) (l : list T) (p : nat) (x : T) :
  (p <= length l)%nat ->
  firstn (S p) (firstn p l ++ x :: skipn p l) = firstn p l ++ [x].
Proof.
  intros Hp.
  rewrite firstn_app, length_firstn, Nat.min_l by assumption.
  replace (S p - p)%nat with 1%nat by lia.
  rewrite firstn_firstn, Nat.min_r by lia. reflexivity.
Qed.

Lemma skipn_succ_insert (T : Type) (l : list T) (p : nat) (x : T) :
  (p <= length l)%nat ->
  skipn (S p) (firstn p l ++ x :: skipn p l) = skipn p l.
Proof.
  intros Hp.
  rewrite skipn_app, length_firstn, Nat.min_l by assumption.
  replace (S p - p)%nat with 1%nat by lia.
  rewrite skipn_all2 by (rewrite length_firstn; lia). reflexivity.
Qed.

(** ** The two loops of [addGroup] *)

(** The offset loop adds [groups.length + 1] once per preceding group. *)
Lemma advanceInsertIndex_eq (count : nat) (groups : list IRankGroup) (i : Z) :
  groups <> [] ->
  advanceInsertIndex count groups i =
  i + Z.of_nat count * (Z.of_nat (length groups) + 1).
Proof.
  intros Hne. revert i.
  induction count as [| count IH]; intros i; cbn [advanceInsertIndex].
  - lia.
  - destruct (Z.ltb_spec 0 (Z.of_nat (length groups))) as [_ | Hlen].
    + rewrite IH. lia.
    + destruct groups; [congruence | cbn [length] in Hlen; lia].
Qed.

(** The item loop puts the whole group, in order, at the clamped index. *)
Lemma insertGroupItems_eq (group : list IItemOptions) :
  forall (index : Z) (flat : list IItemOptions),
    0 <= index ->
    insertGroupItems group index flat =
    (firstn (clampIndex index (length flat)) flat
       ++ group ++ skipn (clampIndex index (length flat)) flat,
     index + Z.of_nat (length group)).
Proof.
  induction group as [| item rest IH]; intros index flat Hidx;
    cbn [insertGroupItems].
  - cbn [app length]. rewrite firstn_skipn. f_equal. lia.
  - rewrite IH by lia. rewrite insertItem_eq.
    set (p := clampIndex index (length flat)).
    assert (Hp : (p <= length flat)%nat) by apply clampIndex_le.
    replace (clampIndex (index + 1) _) with (S p).
    + rewrite firstn_succ_insert, skipn_succ_insert by assumption.
      rewrite <- app_assoc. cbn [app length]. f_equal. lia.
    + rewrite length_app, length_firstn. cbn [length].
      rewrite length_skipn. unfold p, clampIndex in *. lia.
Qed.

(** ** Numbers *)

Ltac number_cases :=
  repeat match goal with
         | x : number |- _ => destruct x
         end;
  cbn in *; try congruence;
  repeat match goal with
         | H : context [Z.leb ?a ?b] |- _ => destruct (Z.leb_spec a b)
         | H : context [Z.ltb ?a ?b] |- _ => destruct (Z.ltb_spec a b)
         | |- context [Z.leb ?a ?b] => destruct (Z.leb_spec a b)
         | |- context [Z.ltb ?a ?b] => destruct (Z.ltb_spec a b)
         end;
  try congruence; try lia.

(** The comparator's test: [x - y > 0] says [y < x], for every number. *)
Lemma gt0_sub (x y : number) :
  Number.gt0 (Number.sub x y) = Number.ltb y x.
Proof. number_cases. Qed.

Lemma leb_not_NaN (x y : number) :
  Number.leb x y = true -> Number.isNaN x = false /\ Number.isNaN y = false.
Proof. number_cases; auto. Qed.

Lemma ltb_not_NaN (x y : number) :
  Number.ltb x y = true -> Number.isNaN x = false /\ Number.isNaN y = false.
Proof. number_cases; auto. Qed.

(** Away from [NaN] the order is total. *)
Lemma leb_ltb (x y : number) :
  Number.isNaN x = false -> Number.isNaN y = false ->
  Number.leb x y = negb (Number.ltb y x).
Proof. number_cases. Qed.

Lemma ltb_leb_false (x y : number) :
  Number.ltb x y = true -> Number.leb y x = false.
Proof. number_cases. Qed.

Lemma ltb_leb (x y : number) :
  Number.ltb x y = true -> Number.leb x y = true.
Proof. number_cases. Qed.

Lemma leb_trans (x y z : number) :
  Number.leb x y = true -> Number.leb y z = true -> Number.leb x z = true.
Proof. number_cases. Qed.

Lemma ltb_leb_trans (x y z : number) :
  Number.ltb x y = true -> Number.leb y z = true -> Number.ltb x z = true.
Proof. number_cases. Qed.

Lemma leb_ltb_trans (x y z : number) :
  Number.leb x y = true -> Number.ltb y z = true -> Number.ltb x z = true.
Proof. number_cases. Qed.

Lemma itemCmp_gt0 (h g : IRankGroup) :
  Number.gt0 (itemCmp h g) = Number.ltb (rank g) (rank h).
Proof. apply gt0_sub. Qed.

(** ** The bisection *)

Section Bisection.

Variables (T U : Type) (array : list T) (value : U) (fn : T -> U -> number).

Lemma upperBound_loop_le (fuel : nat) :
  forall begin span : nat,
    (ArrayExt.upperBound_loop fuel array value fn begin span <= begin + span)%nat.
Proof.
  induction fuel as [| fuel IH]; intros begin span; cbn [ArrayExt.upperBound_loop].
  - lia.
  - destruct (Nat.ltb_spec 0 span) as [Hpos | Hzero]; [| lia].
    pose proof (Nat.lt_div2 span Hpos) as Hhalf.
    set (half := Nat.div2 span) in *. clearbody half.
    destruct (nth_error array (begin + half)) as [element |]; [| lia].
    destruct (Number.gt0 (fn element value)).
    + specialize (IH begin half). lia.
    + specialize (IH (begin + half + 1)%nat (span - (half + 1))%nat). lia.
Qed.

Lemma upperBound_le :
  (ArrayExt.upperBound array value fn <= length array)%nat.
Proof.
  unfold ArrayExt.upperBound.
  destruct (Nat.eqb_spec (length array) 0) as [_ | _]; [lia |].
  apply (upperBound_loop_le (length array) 0 (length array)).
Qed.

(** When the elements that compare greater are exactly those from position
    [k] on, the loop ends at [k]; a fuel of the span is enough. *)
Lemma upperBound_loop_found (k : nat) :
  (forall i x, nth_error array i = Some x ->
               Number.gt0 (fn x value) = (k <=? i)%nat) ->
  forall fuel begin span : nat,
    (span <= fuel)%nat ->
    (begin <= k <= begin + span)%nat ->
    (begin + span <= length array)%nat ->
    ArrayExt.upperBound_loop fuel array value fn begin span = k.
Proof.
  intros Hmono.
  induction fuel as [| fuel IH]; intros begin span Hfuel Hk Hlen;
    cbn [ArrayExt.upperBound_loop].
  - lia.
  - destruct (Nat.ltb_spec 0 span) as [Hpos | Hzero]; [| lia].
    pose proof (Nat.lt_div2 span Hpos) as Hhalf.
    set (half := Nat.div2 span) in *. clearbody half.
    destruct (nth_error array (begin + half)) as [element |] eqn:Hnth.
    + rewrite (Hmono _ _ Hnth).
      destruct (Nat.leb_spec k (begin + half)) as [Hle | Hgt];
        apply IH; lia.
    + apply nth_error_None in Hnth. lia.
Qed.

(** When every element compares greater, the search returns 0. *)
Lemma upperBound_loop_all_greater :
  (forall x, In x array -> Number.gt0 (fn x value) = true) ->
  forall fuel begin span : nat,
    ArrayExt.upperBound_loop fuel array value fn begin span = begin.
Proof.
  intros Hall.
  induction fuel as [| fuel IH]; intros begin span; cbn [ArrayExt.upperBound_loop].
  - reflexivity.
  - destruct (0 <? span)%nat; [| reflexivity].
    destruct (nth_error array (begin + Nat.div2 span)) as [element |] eqn:Hnth;
      [| reflexivity].
    rewrite (Hall element (nth_error_In _ _ Hnth)). apply IH.
Qed.

Lemma upperBound_all_greater :
  (forall x, In x array -> Number.gt0 (fn x value) = true) ->
  ArrayExt.upperBound array value fn = O.
Proof.
  intros Hall. unfold ArrayExt.upperBound.
  destruct (length array =? 0)%nat; [reflexivity |].
  now apply upperBound_loop_all_greater.
Qed.

Lemma firstGreater_le :
  (firstGreater array value fn <= length array)%nat.
Proof.
  induction array as [| x rest IH]; cbn [firstGreater length].
  - lia.
  - destruct (Number.gt0 (fn x value)); lia.
Qed.

(** The bisection finds the first greater element whenever the elements
    that compare greater come after all the others. *)
Lemma upperBound_found :
  (forall i x, nth_error array i = Some x ->
               Number.gt0 (fn x value)
               = (firstGreater array value fn <=? i)%nat) ->
  ArrayExt.upperBound array value fn = firstGreater array value fn.
Proof.
  intros Hmono. unfold ArrayExt.upperBound.
  pose proof firstGreater_le as Hle.
  destruct (Nat.eqb_spec (length array) 0) as [Hnil | Hlen].
  - lia.
  - apply upperBound_loop_found; [exact Hmono | lia | lia | lia].
Qed.

End Bisection.

(** ** The group list *)

(** No group before the first greater one has a rank above the new one. *)
Lemma firstGreater_firstn (groups : list IRankGroup) (g : IRankGroup) :
  Forall (fun h => Number.ltb (rank g) (rank h) = false)
    (firstn (firstGreater groups g itemCmp) groups).
Proof.
  induction groups as [| h rest IH]; cbn [firstGreater].
  - constructor.
  - rewrite itemCmp_gt0.
    destruct (Number.ltb (rank g) (rank h)) eqn:Hlt; cbn [firstn].
    + constructor.
    + constructor; assumption.
Qed.

(** In a sorted list everything from the first greater group on has a
    greater rank. *)
Lemma firstGreater_skipn (groups : list IRankGroup) (g : IRankGroup) :
  rankSorted groups ->
  Forall (fun h => Number.ltb (rank g) (rank h) = true)
    (skipn (firstGreater groups g itemCmp) groups).
Proof.
  induction groups as [| h rest IH]; cbn [firstGreater rankSorted].
  - constructor.
  - intros [Hh Hrest]. rewrite itemCmp_gt0.
    destruct (Number.ltb (rank g) (rank h)) eqn:Hlt; cbn [skipn].
    + constructor; [exact Hlt |].
      eapply Forall_impl; [| exact Hh]. cbn beta. intros h' Hh'.
      exact (ltb_leb_trans _ _ _ Hlt Hh').
    + auto.
Qed.

(** In a sorted group list the groups of greater rank are exactly those
    from the first greater one on. *)
Lemma firstGreater_nth (groups : list IRankGroup) (g : IRankGroup) :
  rankSorted groups ->
  forall i x,
    nth_error groups i = Some x ->
    Number.gt0 (itemCmp x g) = (firstGreater groups g itemCmp <=? i)%nat.
Proof.
  induction groups as [| h rest IH]; cbn [firstGreater rankSorted];
    intros Hs i x Hnth.
  - destruct i; discriminate.
  - destruct Hs as [Hh Hrest]. rewrite (itemCmp_gt0 h g).
    destruct (Number.ltb (rank g) (rank h)) eqn:Hlt.
    + cbn [Nat.leb]. rewrite itemCmp_gt0.
      destruct i as [| i]; cbn [nth_error] in Hnth.
      * injection Hnth as <-. exact Hlt.
      * apply nth_error_In in Hnth. rewrite Forall_forall in Hh.
        exact (ltb_leb_trans _ _ _ Hlt (Hh x Hnth)).
    + destruct i as [| i]; cbn [nth_error] in Hnth.
      * injection Hnth as <-. rewrite itemCmp_gt0. exact Hlt.
      * cbn [Nat.leb]. now apply IH.
Qed.

(** On a sorted group list the bisection returns the first position whose
    rank is strictly greater than the new one. *)
Lemma upperBound_sorted (groups : list IRankGroup) (g : IRankGroup) :
  rankSorted groups ->
  ArrayExt.upperBound groups g itemCmp = firstGreater groups g itemCmp.
Proof. intros Hs. apply upperBound_found, firstGreater_nth, Hs. Qed.

Lemma rankSorted_app (l1 l2 : list IRankGroup) :
  rankSorted (l1 ++ l2) <->
  rankSorted l1 /\ rankSorted l2 /\
  Forall (fun g => Forall (fun h => Number.leb (rank g) (rank h) = true) l2) l1.
Proof.
  induction l1 as [| g l1 IH]; cbn [app rankSorted].
  - intuition auto.
  - rewrite Forall_app, IH. split.
    + intros [[H1 H2] [H3 [H4 H5]]]. auto.
    + intros [[H1 H2] [H3 H4]]. inversion H4; subst. auto.
Qed.

Lemma addGroup_groups_eq (menu : JupyterLabMenu) (items : list IItemOptions)
    (rank : option number) :
  addGroup_groups menu items rank =
  firstn (addGroup_groupIndex menu items rank) (_groups menu)
    ++ mkRankGroup items (defaultRank rank)
    :: skipn (addGroup_groupIndex menu items rank) (_groups menu).
Proof.
  unfold addGroup_groups. apply insert_at.
  unfold addGroup_groupIndex. apply upperBound_le.
Qed.

Lemma addGroup_groups_length (menu : JupyterLabMenu) (items : list IItemOptions)
    (rank : option number) :
  length (addGroup_groups menu items rank) = S (length (_groups menu)).
Proof.
  rewrite addGroup_groups_eq, length_app. cbn [length].
  rewrite length_firstn, length_skipn.
  pose proof (upperBound_le (_groups menu)
                (mkRankGroup items (defaultRank rank)) itemCmp).
  unfold addGroup_groupIndex. lia.
Qed.

(** Where the new group lands in a sorted list without [NaN] ranks. *)
Lemma addGroup_groups_split (menu : JupyterLabMenu) (items : list IItemOptions)
    (rank : option number) :
  rankSorted (_groups menu) -> rankedGroups (_groups menu) ->
  Number.isNaN (defaultRank rank) = false ->
  exists lower higher,
    _groups menu = lower ++ higher /\
    addGroup_groups menu items rank
      = lower ++ mkRankGroup items (defaultRank rank) :: higher /\
    Forall (fun h => Number.leb (Private.rank h) (defaultRank rank) = true) lower /\
    Forall (fun h => Number.ltb (defaultRank rank) (Private.rank h) = true) higher.
Proof.
  intros Hs Hr Hg. set (g := mkRankGroup items (defaultRank rank)).
  exists (firstn (firstGreater (_groups menu) g itemCmp) (_groups menu)),
         (skipn (firstGreater (_groups menu) g itemCmp) (_groups menu)).
  split; [now rewrite firstn_skipn | split; [| split]].
  - rewrite addGroup_groups_eq. unfold addGroup_groupIndex. fold g.
    now rewrite (upperBound_sorted _ g Hs).
  - pose proof (firstGreater_firstn (_groups menu) g) as Hlo.
    assert (Hr' : rankedGroups
                    (firstn (firstGreater (_groups menu) g itemCmp)
                       (_groups menu))).
    { unfold rankedGroups in *.
      rewrite <- (firstn_skipn (firstGreater (_groups menu) g itemCmp)
                    (_groups menu)) in Hr.
      apply Forall_app in Hr. exact (proj1 Hr). }
    unfold rankedGroups in Hr'. rewrite Forall_forall in *.
    intros h Hin. rewrite leb_ltb by auto. cbn [Private.rank g] in *.
    now rewrite (Hlo h Hin).
  - apply (firstGreater_skipn (_groups menu) g Hs).
Qed.

(** [addGroup] keeps a group list sorted by rank and free of [NaN]. *)
Lemma addGroup_groups_sorted (menu : JupyterLabMenu) (items : list IItemOptions)
    (rank : option number) :
  rankSorted (_groups menu) -> rankedGroups (_groups menu) ->
  Number.isNaN (defaultRank rank) = false ->
  rankSorted (addGroup_groups menu items rank)
  /\ rankedGroups (addGroup_groups menu items rank).
Proof.
  intros Hs Hr Hg.
  destruct (addGroup_groups_split menu items rank Hs Hr Hg)
    as [lower [higher [Hold [Hnew [Hlo Hhi]]]]].
  rewrite Hnew. rewrite Hold in Hs, Hr.
  apply rankSorted_app in Hs. destruct Hs as [Hs1 [Hs2 _]].
  unfold rankedGroups in *. apply Forall_app in Hr. destruct Hr as [Hr1 Hr2].
  split.
  - apply rankSorted_app. split; [exact Hs1 | split].
    + cbn [rankSorted]. split; [| exact Hs2].
      eapply Forall_impl; [| exact Hhi]. cbn beta. intros h Hh.
      exact (ltb_leb _ _ Hh).
    + eapply Forall_impl; [| exact Hlo]. cbn beta. intros h Hh.
      constructor; [exact Hh |].
      eapply Forall_impl; [| exact Hhi]. cbn beta. intros h' Hh'.
      exact (ltb_leb _ _ (leb_ltb_trans _ _ _ Hh Hh')).
  - apply Forall_app. split; [exact Hr1 |].
    constructor; [exact Hg | exact Hr2].
Qed.

Lemma addGroup_groups_field (menu : JupyterLabMenu) (items : list IItemOptions)
    (rank : option number) :
  _groups (addGroup menu items rank) = addGroup_groups menu items rank.
Proof.
  unfold addGroup.
  destruct (0 <? addGroup_insertIndex menu items rank);
    destruct (insertGroupItems _ _ _); reflexivity.
Qed.

Lemma addGroup_startIndex (menu : JupyterLabMenu) (items : list IItemOptions)
    (rank : option number) :
  startIndex (addGroup menu items rank) = startIndex menu.
Proof.
  unfold addGroup.
  destruct (0 <? addGroup_insertIndex menu items rank);
    destruct (insertGroupItems _ _ _); reflexivity.
Qed.

(** After any sequence of calls without a [NaN] rank the group list is in
    ascending rank order, whatever the order of the calls. *)
Lemma addGroups_sorted (calls : list (list IItemOptions * option number)) :
  forall menu,
    rankSorted (_groups menu) -> rankedGroups (_groups menu) ->
    forallb rankedCall calls = true ->
    rankSorted (_groups (addGroups menu calls))
    /\ rankedGroups (_groups (addGroups menu calls)).
Proof.
  induction calls as [| [items rank] calls IH]; intros menu Hs Hr Hcalls;
    cbn [addGroups fold_left fst snd].
  - split; assumption.
  - cbn [forallb] in Hcalls. apply andb_prop in Hcalls.
    destruct Hcalls as [Hcall Hcalls].
    apply negb_true_iff in Hcall. cbn [snd] in Hcall.
    destruct (addGroup_groups_sorted menu items rank Hs Hr Hcall) as [Hs' Hr'].
    apply IH; [| | exact Hcalls]; now rewrite addGroup_groups_field.
Qed.

(** A [NaN] rank compares greater than nothing and nothing compares greater
    than it, so it breaks the order: a rank-5 group added after ranks 10 and
    [NaN] is recorded last, and its insertion index is 2 * (3 + 1). *)
Remark NaN_rank_unsorts :
  let menu := addGroups JupyterLabMenu_new Calls.withNaN in
  map rank (_groups (addGroup menu [Calls.c] (Some (Num 5))))
  = [Num 10; NaN; Num 5]
  /\ addGroup_insertIndex menu [Calls.c] (Some (Num 5)) = 8.
Proof. vm_compute. auto. Qed.

(** ** The insertion index and the flat list after one call *)

(** What the offset loop of the code computes. *)
Lemma addGroup_insertIndex_eq (menu : JupyterLabMenu) (items : list IItemOptions)
    (rank : option number) :
  addGroup_insertIndex menu items rank =
  startIndex menu
  + Z.of_nat (addGroup_groupIndex menu items rank)
    * (Z.of_nat (length (_groups menu)) + 2).
Proof.
  unfold addGroup_insertIndex. rewrite advanceInsertIndex_eq.
  - rewrite addGroup_groups_length. lia.
  - intros Hnil. apply (f_equal (@length _)) in Hnil.
    rewrite addGroup_groups_length in Hnil. discriminate.
Qed.

Lemma addGroup_menuItems (menu : JupyterLabMenu) (items : list IItemOptions)
    (rank : option number) :
  0 <= startIndex menu ->
  menuItems (addGroup menu items rank) =
  if 0 <? addGroup_insertIndex menu items rank
  then
    firstn (clampIndex (addGroup_insertIndex menu items rank)
              (length (menuItems menu))) (menuItems menu)
      ++ separator :: items
      ++ skipn (clampIndex (addGroup_insertIndex menu items rank)
                  (length (menuItems menu))) (menuItems menu)
  else items ++ menuItems menu.
Proof.
  intros Hstart. unfold addGroup.
  pose proof (addGroup_insertIndex_eq menu items rank) as Hidx.
  set (index := addGroup_insertIndex menu items rank) in *.
  destruct (Z.ltb_spec 0 index) as [Hpos | Hzero].
  - rewrite insertGroupItems_eq by lia. cbn [menuItems].
    rewrite insertItem_eq.
    set (p := clampIndex index (length (menuItems menu))).
    assert (Hp : (p <= length (menuItems menu))%nat) by apply clampIndex_le.
    replace (clampIndex (index + 1) _) with (S p).
    + rewrite firstn_succ_insert, skipn_succ_insert by assumption.
      now rewrite <- app_assoc.
    + rewrite length_app, length_firstn. cbn [length].
      rewrite length_skipn. unfold p, clampIndex in *. lia.
  - assert (Hi : index = 0) by nia.
    rewrite Hi, insertGroupItems_eq by lia. cbn [menuItems].
    replace (clampIndex 0 _) with O by (unfold clampIndex; lia).
    reflexivity.
Qed.

Lemma addGroups_startIndex (calls : list (list IItemOptions * option number)) :
  forall menu, startIndex (addGroups menu calls) = startIndex menu.
Proof.
  induction calls as [| call calls IH]; intros menu; cbn [addGroups fold_left].
  - reflexivity.
  - unfold addGroups in IH. rewrite IH. apply addGroup_startIndex.
Qed.

Lemma addGroups_snoc (calls : list (list IItemOptions * option number))
    (items : list IItemOptions) (rank : option number) (menu : JupyterLabMenu) :
  addGroups menu (calls ++ [(items, rank)])
  = addGroup (addGroups menu calls) items rank.
Proof. unfold addGroups. now rewrite fold_left_app. Qed.

(** ** Leading separators *)

Lemma addGroup_proper (menu : JupyterLabMenu) (items : list IItemOptions)
    (rank : option number) :
  properMenu menu -> properGroup items = true ->
  properMenu (addGroup menu items rank).
Proof.
  intros [Hstart [Hhd Hempty]] Hitems. unfold properMenu.
  rewrite addGroup_startIndex, addGroup_groups_field.
  rewrite addGroup_menuItems by lia.
  pose proof (addGroup_insertIndex_eq menu items rank) as Hidx.
  pose proof (upperBound_le (_groups menu)
                (mkRankGroup items (defaultRank rank)) itemCmp) as Hk.
  fold (addGroup_groupIndex menu items rank) in Hk.
  split; [exact Hstart |].
  destruct (Z.ltb_spec 0 (addGroup_insertIndex menu items rank)) as [Hpos | Hzero].
  - destruct (menuItems menu) as [| y flat] eqn:Hflat.
    + rewrite Hempty in Hk, Hidx by reflexivity. cbn [length] in Hk, Hidx. nia.
    + assert (Hp : exists p, clampIndex (addGroup_insertIndex menu items rank)
                               (length (y :: flat)) = S p).
      { exists (Nat.pred (clampIndex (addGroup_insertIndex menu items rank)
                            (length (y :: flat)))).
        unfold clampIndex. cbn [length]. lia. }
      destruct Hp as [p Hp]. rewrite Hp. cbn [firstn app hd_error].
      split; [exact Hhd | discriminate].
  - destruct items as [| x items]; [discriminate |].
    cbn [app hd_error]. split; [| discriminate].
    intros Heq. injection Heq as ->. discriminate.
Qed.

Lemma addGroups_proper (calls : list (list IItemOptions * option number)) :
  forall menu,
    properMenu menu ->
    forallb (fun call => properGroup (fst call)) calls = true ->
    properMenu (addGroups menu calls).
Proof.
  induction calls as [| [items rank] calls IH]; intros menu Hm Hcalls;
    cbn [addGroups fold_left fst snd].
  - exact Hm.
  - cbn [forallb fst] in Hcalls. apply andb_prop in Hcalls.
    destruct Hcalls as [Hitems Hcalls].
    apply IH; [now apply addGroup_proper | exact Hcalls].
Qed.

Lemma JupyterLabMenu_new_proper : properMenu JupyterLabMenu_new.
Proof.
  unfold properMenu. cbn.
  split; [reflexivity | split; [discriminate | reflexivity]].
Qed.

(** ** Embedding and permutation facts *)

Lemma Embeds_refl (T : Type) (l : list T) : Embeds l l.
Proof. induction l; [apply Embeds_nil | now apply Embeds_keep]. Qed.

Lemma Embeds_trans (T : Type) (l1 l2 l3 : list T) :
  Embeds l1 l2 -> Embeds l2 l3 -> Embeds l1 l3.
Proof.
  intros H12 H23. revert l1 H12.
  induction H23 as [| x l2 l3 H23 IH | x l2 l3 H23 IH]; intros l1 H12.
  - exact H12.
  - constructor. now apply IH.
  - inversion H12; subst.
    + apply Embeds_skip. now apply IH.
    + apply Embeds_keep. now apply IH.
Qed.

Lemma Embeds_app (T : Type) (l1 l1' l2 l2' : list T) :
  Embeds l1 l1' -> Embeds l2 l2' -> Embeds (l1 ++ l2) (l1' ++ l2').
Proof.
  intros H1 H2.
  induction H1; cbn [app];
    [assumption | apply Embeds_skip | apply Embeds_keep]; assumption.
Qed.

Lemma Embeds_insertItem (flat : list IItemOptions) (index : Z)
    (x : IItemOptions) :
  Embeds flat (insertItem flat index x).
Proof.
  rewrite insertItem_eq.
  rewrite <- (firstn_skipn (clampIndex index (length flat)) flat) at 1.
  apply Embeds_app; [apply Embeds_refl | apply Embeds_skip, Embeds_refl].
Qed.

Lemma Embeds_insertGroupItems (group : list IItemOptions) :
  forall (index : Z) (flat : list IItemOptions),
    Embeds flat (fst (insertGroupItems group index flat)).
Proof.
  induction group as [| item rest IH]; intros index flat;
    cbn [insertGroupItems fst].
  - apply Embeds_refl.
  - eapply Embeds_trans; [apply Embeds_insertItem | apply IH].
Qed.

Lemma Permutation_insertItem (flat : list IItemOptions) (index : Z)
    (x : IItemOptions) :
  Permutation (x :: flat) (insertItem flat index x).
Proof.
  rewrite insertItem_eq.
  rewrite <- (firstn_skipn (clampIndex index (length flat)) flat) at 1.
  apply Permutation_middle.
Qed.

Lemma Permutation_insertGroupItems (group : list IItemOptions) :
  forall (index : Z) (flat : list IItemOptions),
    Permutation (group ++ flat) (fst (insertGroupItems group index flat)).
Proof.
  induction group as [| item rest IH]; intros index flat;
    cbn [insertGroupItems fst app].
  - reflexivity.
  - rewrite <- IH. rewrite <- Permutation_insertItem.
    apply Permutation_middle.
Qed.

Lemma filter_Permutation (T : Type) (f : T -> bool) (l l' : list T) :
  Permutation l l' -> Permutation (filter f l) (filter f l').
Proof.
  induction 1 as [| x l l' _ IH | x y l | l l' l'' _ IH1 _ IH2]; cbn [filter].
  - constructor.
  - destruct (f x); [constructor |]; exact IH.
  - destruct (f x), (f y); try reflexivity. constructor.
  - now transitivity (filter f l').
Qed.

(** The flat list of [addGroup] as the item loop leaves it. *)
Lemma addGroup_menuItems_loop (menu : JupyterLabMenu)
    (items : list IItemOptions) (rank : option number) :
  menuItems (addGroup menu items rank)
  = fst (insertGroupItems items
           (if 0 <? addGroup_insertIndex menu items rank
            then addGroup_insertIndex menu items rank + 1
            else addGroup_insertIndex menu items rank)
           (if 0 <? addGroup_insertIndex menu items rank
            then insertItem (menuItems menu)
                   (addGroup_insertIndex menu items rank) separator
            else menuItems menu)).
Proof.
  unfold addGroup.
  destruct (0 <? addGroup_insertIndex menu items rank);
    destruct (insertGroupItems _ _ _); reflexivity.
Qed.

Lemma addGroup_Permutation (menu : JupyterLabMenu)
    (items : list IItemOptions) (rank : option number) :
  Permutation
    (menuItems (addGroup menu items rank))
    ((if 0 <? addGroup_insertIndex menu items rank then [separator] else [])
       ++ items ++ menuItems menu).
Proof.
  rewrite addGroup_menuItems_loop, <- Permutation_insertGroupItems.
  destruct (0 <? addGroup_insertIndex menu items rank); cbn [app].
  - rewrite <- Permutation_insertItem. symmetry. apply Permutation_middle.
  - reflexivity.
Qed.

Lemma addGroup_Embeds (menu : JupyterLabMenu)
    (items : list IItemOptions) (rank : option number) :
  Embeds (menuItems menu) (menuItems (addGroup menu items rank)).
Proof.
  rewrite addGroup_menuItems_loop.
  eapply Embeds_trans; [| apply Embeds_insertGroupItems].
  destruct (0 <? addGroup_insertIndex menu items rank);
    [apply Embeds_insertItem | apply Embeds_refl].
Qed.

(** ** The group list in terms of the calls *)

Lemma addGroups_groups_Permutation (calls : list (list IItemOptions * option number)) :
  forall menu,
    Permutation (_groups (addGroups menu calls))
                (_groups menu ++ map rankGroupOf calls).
Proof.
  induction calls as [| [items rank] calls IH]; intros menu;
    cbn [addGroups fold_left map fst snd].
  - now rewrite app_nil_r.
  - fold (addGroups (addGroup menu items rank) calls). rewrite IH.
    rewrite addGroup_groups_field, addGroup_groups_eq.
    unfold rankGroupOf at 2. cbn [fst snd].
    rewrite <- (firstn_skipn (addGroup_groupIndex menu items rank)
                  (_groups menu)) at 3.
    rewrite <- !app_assoc. apply Permutation_app_head. cbn [app].
    rewrite <- Permutation_middle. reflexivity.
Qed.

Lemma filter_none (T : Type) (f : T -> bool) (l : list T) :
  Forall (fun x => f x = false) l -> filter f l = [].
Proof.
  induction 1 as [| x l Hx _ IH]; cbn [filter]; [| rewrite Hx]; auto.
Qed.

(** In a sorted group list without [NaN] ranks the first greater position
    counts the groups whose rank is not above the new one. *)
Lemma firstGreater_sorted_count (groups : list IRankGroup) (g : IRankGroup) :
  rankSorted groups -> rankedGroups groups ->
  Number.isNaN (Private.rank g) = false ->
  firstGreater groups g itemCmp
  = length (filter (fun h => Number.leb (Private.rank h) (Private.rank g))
              groups).
Proof.
  induction groups as [| h rest IH]; cbn [firstGreater rankSorted filter].
  - reflexivity.
  - intros [Hh Hrest] Hr Hg. inversion Hr as [| ? ? Hnh Hr']; subst.
    rewrite itemCmp_gt0.
    destruct (Number.ltb (Private.rank g) (Private.rank h)) eqn:Hlt.
    + rewrite (ltb_leb_false _ _ Hlt).
      rewrite filter_none; [reflexivity |].
      eapply Forall_impl; [| exact Hh]. cbn beta. intros h' Hh'.
      apply ltb_leb_false. exact (ltb_leb_trans _ _ _ Hlt Hh').
    + rewrite leb_ltb by assumption. rewrite Hlt.
      cbn [negb length]. now rewrite IH.
Qed.

Lemma filter_rankGroupOf (rank : option number)
    (calls : list (list IItemOptions * option number)) :
  filter (fun h => Number.leb (Private.rank h) (defaultRank rank))
    (map rankGroupOf calls)
  = map rankGroupOf (filter (notAbove rank) calls).
Proof.
  induction calls as [| call calls IH]; cbn [map filter].
  - reflexivity.
  - unfold notAbove at 1, rankGroupOf at 1. cbn [Private.rank].
    destruct (Number.leb (defaultRank (snd call)) (defaultRank rank));
      cbn [map]; now rewrite IH.
Qed.

(** Without [NaN] ranks the position of a new group is the number of
    earlier calls whose rank is not above its own. *)
Lemma addGroups_groupIndex (flat : list IItemOptions) (start : Z)
    (calls : list (list IItemOptions * option number))
    (items : list IItemOptions) (rank : option number) :
  forallb rankedCall calls = true ->
  Number.isNaN (defaultRank rank) = false ->
  addGroup_groupIndex (addGroups (mkMenu flat start []) calls) items rank
  = length (filter (notAbove rank) calls).
Proof.
  intros Hcalls Hrank.
  destruct (addGroups_sorted calls (mkMenu flat start []) I (Forall_nil _) Hcalls)
    as [Hs Hn].
  unfold addGroup_groupIndex.
  rewrite upperBound_sorted by exact Hs.
  rewrite firstGreater_sorted_count by assumption.
  cbn [Private.rank].
  rewrite (Permutation_length
             (filter_Permutation _
                (addGroups_groups_Permutation calls (mkMenu flat start [])))).
  cbn [_groups app]. now rewrite filter_rankGroupOf, length_map.
Qed.

(** A new group whose rank is below that of every earlier call is put
    first in the group list. *)
Lemma addGroups_groupIndex_below (menu : JupyterLabMenu)
    (calls : list (list IItemOptions * option number))
    (items : list IItemOptions) (rank : option number) :
  _groups menu = [] ->
  forallb (below rank) calls = true ->
  addGroup_groupIndex (addGroups menu calls) items rank = O.
Proof.
  intros Hnil Hbelow. unfold addGroup_groupIndex.
  apply upperBound_all_greater. intros h Hin.
  apply (Permutation_in _ (addGroups_groups_Permutation calls menu)) in Hin.
  rewrite Hnil in Hin. cbn [app] in Hin.
  apply in_map_iff in Hin. destruct Hin as [call [<- Hcall]].
  rewrite itemCmp_gt0. cbn [Private.rank rankGroupOf].
  rewrite forallb_forall in Hbelow. exact (Hbelow call Hcall).
Qed.

Lemma addGroups_groups_count (flat : list IItemOptions) (start : Z)
    (calls : list (list IItemOptions * option number)) :
  length (_groups (addGroups (mkMenu flat start []) calls)) = length calls.
Proof.
  rewrite (Permutation_length
             (addGroups_groups_Permutation calls (mkMenu flat start []))).
  cbn [_groups app]. apply length_map.
Qed.

Lemma addGroups_insertIndex (flat : list IItemOptions) (start : Z)
    (calls : list (list IItemOptions * option number))
    (items : list IItemOptions) (rank : option number) :
  forallb rankedCall calls = true ->
  Number.isNaN (defaultRank rank) = false ->
  addGroup_insertIndex (addGroups (mkMenu flat start []) calls) items rank
  = start + Z.of_nat (length (filter (notAbove rank) calls))
            * (Z.of_nat (length calls) + 2).
Proof.
  intros Hcalls Hrank.
  rewrite addGroup_insertIndex_eq, addGroups_groupIndex,
    addGroups_groups_count, addGroups_startIndex by assumption.
  reflexivity.
Qed.

Lemma existsb_filter (T : Type) (f : T -> bool) (l : list T) :
  existsb f l = negb (Nat.eqb (length (filter f l)) 0).
Proof.
  induction l as [| x l IH]; cbn [existsb filter]; [reflexivity |].
  destruct (f x); [reflexivity | exact IH].
Qed.

Lemma addGroup_menuItems_length (menu : JupyterLabMenu)
    (items : list IItemOptions) (rank : option number) :
  (length (menuItems menu) <= length (menuItems (addGroup menu items rank)))%nat.
Proof.
  rewrite (Permutation_length (addGroup_Permutation menu items rank)).
  rewrite !length_app. lia.
Qed.

Lemma addGroup_prefix (menu : JupyterLabMenu) (items : list IItemOptions)
    (rank : option number) :
  0 <= startIndex menu <= Z.of_nat (length (menuItems menu)) ->
  firstn (Z.to_nat (startIndex menu)) (menuItems (addGroup menu items rank))
  = firstn (Z.to_nat (startIndex menu)) (menuItems menu).
Proof.
  intros [Hlo Hhi]. rewrite addGroup_menuItems by exact Hlo.
  pose proof (addGroup_insertIndex_eq menu items rank) as Hidx.
  set (index := addGroup_insertIndex menu items rank) in *.
  destruct (Z.ltb_spec 0 index) as [Hpos | Hzero].
  - set (p := clampIndex index (length (menuItems menu))).
    assert (Hp : (Z.to_nat (startIndex menu) <= p <= length (menuItems menu))%nat)
      by (unfold p, clampIndex; nia).
    rewrite firstn_app, length_firstn, Nat.min_l by lia.
    replace (Z.to_nat (startIndex menu) - p)%nat with O by lia.
    rewrite firstn_firstn, Nat.min_l by lia.
    cbn [firstn]. apply app_nil_r.
  - replace (startIndex menu) with 0 by nia. reflexivity.
Qed.

(** ** The kernel user registry *)

Section KernelFacts.

Variables (Widget Result : Type).

Implicit Types (km : KernelMenu Widget Result) (u : IKernelUser Widget Result)
  (w : Widget) (a : KernelAction).

(** [_findUser] returns exactly the first owner of the focused widget. *)
Lemma findUser_firstOwner km w u :
  _findUser km (Some w) = Some u <-> firstOwner (_users km) w u.
Proof.
  cbn [_findUser]. generalize (_users km) as users.
  induction users as [| v users IH]; cbn [ArrayExt.findFirstValue].
  - split; [discriminate |].
    intros [earlier [later [Heq _]]]. now destruct earlier.
  - destruct (tracker_has v w) eqn:Hv.
    + split.
      * intros [= <-]. exists [], users. auto.
      * intros [earlier [later [Heq [Hu Hearlier]]]].
        destruct earlier as [| v' earlier]; cbn [app] in Heq.
        -- now injection Heq as <- _.
        -- injection Heq as <- _. inversion Hearlier; subst. congruence.
    + rewrite IH. split.
      * intros [earlier [later [Heq [Hu Hearlier]]]].
        exists (v :: earlier), later. subst users. auto.
      * intros [earlier [later [Heq [Hu Hearlier]]]].
        destruct earlier as [| v' earlier]; cbn [app] in Heq.
        -- injection Heq as <- _. congruence.
        -- injection Heq as <- ->. inversion Hearlier; subst.
           exists earlier, later. auto.
Qed.

Lemma firstOwner_unique (users : list (IKernelUser Widget Result)) w u u' :
  firstOwner users w u -> firstOwner users w u' -> u = u'.
Proof.
  intros H H'.
  apply (findUser_firstOwner (mkKernelMenu JupyterLabMenu_new users)) in H, H'.
  congruence.
Qed.

(** Registration appends: after [addUser] the new user is last. *)
Lemma addUser_users km u : _users (addUser km u) = _users km ++ [u].
Proof. reflexivity. Qed.

Lemma findUser_null km : _findUser km None = None.
Proof. reflexivity. Qed.

Lemma isEnabled_eq a km (cw : option Widget) :
  isEnabled a km cw = hasDelegate (delegateOf a) (_findUser km cw).
Proof. destruct a; reflexivity. Qed.

Lemma execute_eq a km (cw : option Widget) :
  execute a km cw = callDelegate (delegateOf a) (_findUser km cw) cw.
Proof. destruct a; reflexivity. Qed.

End KernelFacts.

(** * The flat item list: ordering and separators *)

(** C1.  The flat order is not always by rank: after a four-item group of
    rank 10 and then a one-item group of rank 30 on a fresh menu, the item
    of the rank-30 group sits before the last item of the rank-10 group,
    although the group list itself is in rank order. *)
Theorem rank_order_flat_violation :
  let menu := addGroups JupyterLabMenu_new Calls.rankOrder in
  menuItems menu
  = [command "a1"%string; command "a2"%string; command "a3"%string;
     separator; Calls.b; command "a4"%string]
  /\ itemsBefore Calls.a4 [Calls.b] (menuItems menu) = false
  /\ map rank (_groups menu) = [Num 10; Num 30].
Proof. vm_compute. auto. Qed.

(** C2.  The insertion point of the code is not the sum of the preceding
    groups' item counts plus one each: with one one-item group of rank 10
    present, a group of rank 20 gets insertion index 3 (one preceding group
    times the group count 2, plus 1) where the per-group rule gives 2. *)
Theorem insertIndex_counts_groups :
  let menu := addGroups JupyterLabMenu_new [([Calls.a], Some (Num 10))] in
  addGroup_insertIndex menu [Calls.c] (Some (Num 20)) = 3
  /\ spec_insertIndex menu [Calls.c] (Some (Num 20)) = 2.
Proof. vm_compute. auto. Qed.

(** C3, as stated, fails: scenario A does not produce
    [c, separator, a, b]. *)
Lemma scenarioA_not_separated :
  menuItems (addGroups JupyterLabMenu_new
               (Calls.scenarioA Calls.a Calls.b Calls.c))
  <> [Calls.c; separator; Calls.a; Calls.b].
Proof. vm_compute. discriminate. Qed.

(** C3, amended.  On an empty menu with [startIndex = 0], [addGroup([a,b], 50)]
    followed by [addGroup([c], 10)] yields the flat order [c, a, b]: the
    second group is inserted at index 0, where no separator is inserted. *)
Theorem scenarioA_flat (x y z : IItemOptions) :
  menuItems (addGroups JupyterLabMenu_new (Calls.scenarioA x y z)) = [z; x; y].
Proof. reflexivity. Qed.

(** C4, as stated, fails: in scenario A the group [a, b] is neither the
    first content of the menu nor immediately preceded by a separator. *)
Lemma scenarioA_group_unseparated :
  let flat := menuItems (addGroups JupyterLabMenu_new
                           (Calls.scenarioA Calls.a Calls.b Calls.c)) in
  startsWith [Calls.a; Calls.b] flat = false
  /\ separatorBefore [Calls.a; Calls.b] flat = false.
Proof. vm_compute. auto. Qed.

(** With the index clamping of [Menu.insertItem], the separator of a group
    added after an empty group leads the menu. *)
Remark separator_leads_after_empty_group :
  menuItems (addGroups JupyterLabMenu_new Calls.emptyFirst)
  = [separator; Calls.a].
Proof. reflexivity. Qed.

(** C4, amended.  When no rank is [NaN], each [addGroup] call on a menu
    built from a fresh one inserts a separator immediately before the new
    group's items exactly when some earlier call had a rank not above the
    new one; a group whose rank is below that of every earlier call is put
    at the front of the menu with no separator, so that nothing separates
    it from the group that follows.  And when every group added so far was
    non-empty and did not begin with a separator item, the menu does not
    begin with a separator. *)
Theorem separator_placement (calls : list (list IItemOptions * option number))
    (items : list IItemOptions) (rank : option number) :
  let menu := addGroups JupyterLabMenu_new calls in
  (forallb rankedCall calls = true ->
   Number.isNaN (defaultRank rank) = false ->
   exists before after,
     menuItems menu = before ++ after
     /\ menuItems (addGroup menu items rank)
        = before
            ++ (if existsb (notAbove rank) calls then [separator] else [])
            ++ items ++ after
     /\ (existsb (notAbove rank) calls = false -> before = []))
  /\ (forallb (fun call => properGroup (fst call)) calls = true ->
      hd_error (menuItems menu) <> Some separator).
Proof.
  cbv zeta. split.
  - intros Hcalls Hrank.
    rewrite addGroup_menuItems by (rewrite addGroups_startIndex; cbn; lia).
    pose proof (addGroups_insertIndex [] 0 calls items rank Hcalls Hrank)
      as Hidx.
    change (mkMenu [] 0 []) with JupyterLabMenu_new in Hidx.
    rewrite Hidx, existsb_filter.
    destruct (length (filter (notAbove rank) calls)) as [| k].
    + exists [], (menuItems (addGroups JupyterLabMenu_new calls)).
      repeat split.
    + replace (0 <? 0 + Z.of_nat (S k) * (Z.of_nat (length calls) + 2))
        with true by (symmetry; apply Z.ltb_lt; nia).
      cbn [Nat.eqb negb].
      eexists _, _. split; [symmetry; apply firstn_skipn |].
      split; [reflexivity | discriminate].
  - intros Hcalls.
    apply (addGroups_proper calls JupyterLabMenu_new_proper Hcalls).
Qed.

(** C4, at the calls of [Calls.rankOrder] followed by a group of rank 20. *)
Lemma separator_placement_witness :
  (exists before after,
     menuItems (addGroups JupyterLabMenu_new Calls.rankOrder) = before ++ after
     /\ menuItems (addGroup (addGroups JupyterLabMenu_new Calls.rankOrder)
                     [Calls.c] (Some (Num 20)))
        = before
            ++ (if existsb (notAbove (Some (Num 20))) Calls.rankOrder
                then [separator] else [])
            ++ [Calls.c] ++ after
     /\ (existsb (notAbove (Some (Num 20))) Calls.rankOrder = false ->
         before = []))
  /\ hd_error (menuItems (addGroups JupyterLabMenu_new Calls.rankOrder))
     <> Some separator.
Proof.
  split.
  - apply (proj1 (separator_placement Calls.rankOrder [Calls.c]
                    (Some (Num 20)))); reflexivity.
  - apply (proj2 (separator_placement Calls.rankOrder [Calls.c]
                    (Some (Num 20)))). reflexivity.
Defined.

(** C5.  Equal ranks keep call order in the group list but not always in
    the flat list: after [a] at rank 10, eight items at rank 5 and [b] at
    rank 10, the groups are in the order (rank 5, [a], [b]) while [b] sits
    before [a] in the menu. *)
Theorem equal_rank_flat_violation :
  let menu := addGroups JupyterLabMenu_new Calls.equalRank in
  map Private.items (_groups menu) = [Calls.x8; [Calls.a]; [Calls.b]]
  /\ menuItems menu = Calls.x8 ++ [separator; Calls.b; Calls.a]
  /\ itemsBefore [Calls.a] [Calls.b] (menuItems menu) = false.
Proof. vm_compute. auto. Qed.

(** C9.  An empty group changes the relative order of the other items:
    seven items of rank 10 and then [b] at rank 20 leave [b] after the
    third item; with an empty group of rank 15 added in between, [b] comes
    after all seven. *)
Theorem empty_group_changes_order :
  withoutSeparators (menuItems (addGroups JupyterLabMenu_new Calls.withoutEmpty))
  = firstn 3 Calls.a7 ++ Calls.b :: skipn 3 Calls.a7
  /\ withoutSeparators (menuItems (addGroups JupyterLabMenu_new Calls.withEmpty))
     = Calls.a7 ++ [Calls.b]
  /\ menuItems (addGroups JupyterLabMenu_new Calls.withEmpty)
     = firstn 3 Calls.a7 ++ separator :: skipn 3 Calls.a7
         ++ [separator; Calls.b].
Proof. vm_compute. auto. Qed.

(** * The kernel menu *)

Section KernelMenuProperties.

Variables (Widget Result : Type).

Implicit Types (km : KernelMenu Widget Result) (u : IKernelUser Widget Result)
  (w : Widget) (a : KernelAction).

(** C10.  A fresh kernel menu has [startIndex = 0] although it holds the
    three seeded items, so its first [addGroup] computes insertion index 0
    and puts the group's items, without a separator, before the seeded
    interrupt / restart / change items. *)
Theorem KernelMenu_first_group (items : list IItemOptions) (rank : option number) :
  startIndex (base (KernelMenu_new Widget Result)) = 0
  /\ addGroup_insertIndex (base (KernelMenu_new Widget Result)) items rank = 0
  /\ menuItems (base (KernelMenu_addGroup (KernelMenu_new Widget Result)
                        items rank))
     = items ++ [command CommandIDs.interruptKernel;
                 command CommandIDs.restartKernel;
                 command CommandIDs.changeKernel].
Proof.
  split; [reflexivity | split; [reflexivity |]].
  cbn [KernelMenu_addGroup base].
  rewrite addGroup_menuItems by (cbn; lia).
  reflexivity.
Qed.

Lemma findUser_none km w :
  _findUser km (Some w) = None
  <-> Forall (fun v => tracker_has v w = false) (_users km).
Proof.
  cbn [_findUser]. generalize (_users km) as users.
  induction users as [| v users IH]; cbn [ArrayExt.findFirstValue].
  - split; [constructor | reflexivity].
  - destruct (tracker_has v w) eqn:Hv.
    + split; [discriminate |]. intros H. inversion H; subst. congruence.
    + rewrite IH. split.
      * intros H. constructor; assumption.
      * intros H. now inversion H.
Qed.

(** C6.  For a focused widget [w], an action is enabled iff the first
    registered user whose tracker owns [w] supplies the action's delegate;
    and executing an enabled action returns what that user's delegate
    returns on [w]. *)
Theorem kernel_delegation a km w :
  (isEnabled a km (Some w) = true
   <-> exists u, firstOwner (_users km) w u /\ delegateOf a u <> None)
  /\ (isEnabled a km (Some w) = true ->
      exists u f,
        firstOwner (_users km) w u
        /\ delegateOf a u = Some f
        /\ execute a km (Some w) = Normal (f w)).
Proof.
  rewrite isEnabled_eq, execute_eq. unfold hasDelegate, callDelegate.
  destruct (_findUser km (Some w)) as [u |] eqn:Hfind.
  - apply findUser_firstOwner in Hfind.
    destruct (delegateOf a u) as [f |] eqn:Hf.
    + split.
      * split; [| reflexivity]. intros _. exists u. split; [exact Hfind |].
        rewrite Hf. discriminate.
      * intros _. exists u, f. auto.
    + split; [split |]; try discriminate.
      intros [u' [Hu' Hd]]. rewrite (firstOwner_unique Hfind Hu') in Hf.
      congruence.
  - split; [split |]; try discriminate.
    intros [u' [Hu' _]]. apply findUser_firstOwner in Hu'. congruence.
Qed.

(** C7, amended.  Executing an action raises a [TypeError] exactly when the
    action is not enabled, that is when no widget is focused, when no
    registered user owns the focused widget, or when its first owner lacks
    the delegate; none of the three [execute] functions guards the call. *)
Theorem execute_unmatched_raises a km (cw : option Widget) :
  (execute a km cw = Throw TypeError <-> isEnabled a km cw = false)
  /\ (isEnabled a km cw = false
      <-> cw = None
          \/ (exists w, cw = Some w
                /\ Forall (fun v => tracker_has v w = false) (_users km))
          \/ (exists w u, cw = Some w
                /\ firstOwner (_users km) w u /\ delegateOf a u = None)).
Proof.
  rewrite isEnabled_eq, execute_eq. unfold hasDelegate, callDelegate.
  destruct cw as [w |].
  - destruct (_findUser km (Some w)) as [u |] eqn:Hfind.
    + pose proof Hfind as Hown. apply findUser_firstOwner in Hown.
      destruct (delegateOf a u) as [f |] eqn:Hf.
      * split; [split; discriminate | split; [discriminate |]].
        intros [Hn | [[w' [[= <-] Hall]] | [w' [u' [[= <-] [Hu' Hd]]]]]].
        -- discriminate.
        -- apply findUser_none in Hall. congruence.
        -- rewrite (firstOwner_unique Hown Hu') in Hf. congruence.
      * split; [split; reflexivity | split; [| reflexivity]].
        intros _. right. right. exists w, u. auto.
    + split; [split; reflexivity | split; [| reflexivity]].
      intros _. right. left. exists w. split; [reflexivity |].
      now apply findUser_none.
  - cbn [_findUser]. split; [split; reflexivity | split; [| reflexivity]].
    intros _. now left.
Qed.

(** C8.  With an empty registry no action is enabled, whatever is focused;
    and with any registry no action is enabled while nothing is focused. *)
Theorem disabled_without_user_or_focus a (menu : JupyterLabMenu)
    km (cw : option Widget) :
  isEnabled a (mkKernelMenu menu (@nil (IKernelUser Widget Result))) cw = false
  /\ _users (KernelMenu_new Widget Result) = []
  /\ isEnabled a km None = false.
Proof.
  split; [| split; [reflexivity | destruct a; reflexivity]].
  destruct a, cw; reflexivity.
Qed.

End KernelMenuProperties.

(** C7, as stated, fails: on a fresh kernel menu with nothing focused the
    interrupt command is not enabled and its [execute] raises. *)
Lemma execute_unmatched_not_noop :
  ~ (forall (a : KernelAction) (km : KernelMenu bool bool) (cw : option bool),
        isEnabled a km cw = false ->
        forall e, execute a km cw <> Throw e).
Proof.
  intros H.
  apply (H Interrupt (KernelMenu_new bool bool) None eq_refl TypeError).
  reflexivity.
Qed.

(** C6, at scenario D: with a widget of kind X focused, restart is enabled
    and executing it returns what the delegate of [U1] returns. *)
Lemma kernel_delegation_witness :
  isEnabled Restart Calls.scenarioD (Some true) = true
  /\ exists u f,
       firstOwner (_users Calls.scenarioD) true u
       /\ delegateOf Restart u = Some f
       /\ execute Restart Calls.scenarioD (Some true) = Normal (f true).
Proof.
  split.
  - reflexivity.
  - apply (proj2 (kernel_delegation Restart Calls.scenarioD true)).
    reflexivity.
Defined.

(** Scenario D, the other half: with a widget of kind Y focused, restart is
    not enabled, since its owner [U2] has no restart delegate. *)
Example scenarioD_kind_Y :
  isEnabled Restart Calls.scenarioD (Some false) = false
  /\ _findUser Calls.scenarioD (Some false) = Some Calls.U2.
Proof. split; reflexivity. Qed.

(** * Further properties of [addGroup] *)

(** X1.  Whatever the order of the calls, the recorded groups are exactly
    the groups passed (an omitted rank read as 100, empty groups included);
    and when no rank is [NaN] they are held in ascending rank order. *)
Theorem groups_sorted_permutation (flat : list IItemOptions) (start : Z)
    (calls : list (list IItemOptions * option number)) :
  Permutation (_groups (addGroups (mkMenu flat start []) calls))
              (map rankGroupOf calls)
  /\ (forallb rankedCall calls = true ->
      rankSorted (_groups (addGroups (mkMenu flat start []) calls))).
Proof.
  split.
  - apply (addGroups_groups_Permutation calls (mkMenu flat start [])).
  - intros Hcalls.
    apply (addGroups_sorted calls (mkMenu flat start []) I (Forall_nil _) Hcalls).
Qed.

(** X1, at the calls of [Calls.equalRank]. *)
Lemma groups_sorted_permutation_witness :
  Permutation (_groups (addGroups (mkMenu [] 0 []) Calls.equalRank))
              (map rankGroupOf Calls.equalRank)
  /\ rankSorted (_groups (addGroups (mkMenu [] 0 []) Calls.equalRank)).
Proof.
  split.
  - apply (proj1 (groups_sorted_permutation [] 0 Calls.equalRank)).
  - apply (proj2 (groups_sorted_permutation [] 0 Calls.equalRank)).
    reflexivity.
Defined.

(** X2.  When no rank is [NaN], a call keeps the recorded groups in their
    order and puts the new group after every group whose rank is not above
    its own and before every group of a greater rank. *)
Theorem new_group_position (flat : list IItemOptions) (start : Z)
    (calls : list (list IItemOptions * option number))
    (items : list IItemOptions) (rank : option number) :
  forallb rankedCall calls = true ->
  Number.isNaN (defaultRank rank) = false ->
  exists lower higher,
    _groups (addGroups (mkMenu flat start []) calls) = lower ++ higher
    /\ _groups (addGroup (addGroups (mkMenu flat start []) calls) items rank)
       = lower ++ mkRankGroup items (defaultRank rank) :: higher
    /\ Forall (fun h => Number.leb (Private.rank h) (defaultRank rank) = true)
         lower
    /\ Forall (fun h => Number.ltb (defaultRank rank) (Private.rank h) = true)
         higher.
Proof.
  intros Hcalls Hrank.
  destruct (addGroups_sorted calls (mkMenu flat start []) I (Forall_nil _) Hcalls)
    as [Hs Hn].
  rewrite addGroup_groups_field.
  now apply addGroup_groups_split.
Qed.

(** X2, at the calls of [Calls.equalRank] followed by a group of rank 10. *)
Lemma new_group_position_witness :
  exists lower higher,
    _groups (addGroups (mkMenu [] 0 []) Calls.equalRank) = lower ++ higher
    /\ _groups (addGroup (addGroups (mkMenu [] 0 []) Calls.equalRank)
                  [Calls.c] (Some (Num 10)))
       = lower ++ mkRankGroup [Calls.c] (defaultRank (Some (Num 10))) :: higher
    /\ Forall (fun h => Number.leb (Private.rank h)
                          (defaultRank (Some (Num 10))) = true) lower
    /\ Forall (fun h => Number.ltb (defaultRank (Some (Num 10)))
                          (Private.rank h) = true) higher.
Proof.
  apply (new_group_position [] 0 Calls.equalRank [Calls.c] (Some (Num 10)));
    reflexivity.
Defined.

(** X3.  When no rank is [NaN], the insertion index of a call depends on
    the earlier calls only through their number and their ranks: it is
    [startIndex] plus the number of earlier calls whose rank is not above
    the new one, times the number of earlier calls plus two; the sizes of
    the groups play no part. *)
Theorem insertIndex_closed_form (flat : list IItemOptions) (start : Z)
    (calls : list (list IItemOptions * option number))
    (items : list IItemOptions) (rank : option number) :
  forallb rankedCall calls = true ->
  Number.isNaN (defaultRank rank) = false ->
  addGroup_insertIndex (addGroups (mkMenu flat start []) calls) items rank
  = start + Z.of_nat (length (filter (notAbove rank) calls))
            * (Z.of_nat (length calls) + 2).
Proof. apply addGroups_insertIndex. Qed.

(** X3, at the calls of [Calls.equalRank] followed by a group of rank 10:
    the index is 2 * (3 + 2). *)
Lemma insertIndex_closed_form_witness :
  addGroup_insertIndex (addGroups (mkMenu [] 0 []) Calls.equalRank)
    [Calls.c] (Some (Num 10))
  = 0 + Z.of_nat (length (filter (notAbove (Some (Num 10))) Calls.equalRank))
        * (Z.of_nat (length Calls.equalRank) + 2).
Proof.
  apply (insertIndex_closed_form [] 0 Calls.equalRank [Calls.c]
           (Some (Num 10)));
    reflexivity.
Defined.

(** X4.  With [startIndex = 0] and no [NaN] rank, a call makes the menu
    longer by the number of its items, plus one separator exactly when some
    earlier call had a rank not above the new one. *)
Theorem addGroup_length (flat : list IItemOptions)
    (calls : list (list IItemOptions * option number))
    (items : list IItemOptions) (rank : option number) :
  forallb rankedCall calls = true ->
  Number.isNaN (defaultRank rank) = false ->
  length (menuItems (addGroup (addGroups (mkMenu flat 0 []) calls) items rank))
  = (length (menuItems (addGroups (mkMenu flat 0 []) calls)) + length items
     + (if existsb (notAbove rank) calls then 1 else 0))%nat.
Proof.
  intros Hcalls Hrank.
  rewrite (Permutation_length (addGroup_Permutation _ items rank)).
  rewrite addGroups_insertIndex by assumption.
  rewrite existsb_filter, !length_app.
  destruct (length (filter (notAbove rank) calls)) as [| k].
  - cbn [Nat.eqb negb Z.of_nat Z.mul Z.add Z.ltb Z.compare length]. lia.
  - replace (0 <? 0 + Z.of_nat (S k) * (Z.of_nat (length calls) + 2))
      with true by (symmetry; apply Z.ltb_lt; nia).
    cbn [Nat.eqb negb length]. lia.
Qed.

(** X4, at the calls of [Calls.equalRank] followed by a group of rank 10. *)
Lemma addGroup_length_witness :
  length (menuItems (addGroup (addGroups (mkMenu [] 0 []) Calls.equalRank)
                       [Calls.c] (Some (Num 10))))
  = (length (menuItems (addGroups (mkMenu [] 0 []) Calls.equalRank))
     + length [Calls.c]
     + (if existsb (notAbove (Some (Num 10))) Calls.equalRank
        then 1 else 0))%nat.
Proof.
  apply (addGroup_length [] Calls.equalRank [Calls.c] (Some (Num 10)));
    reflexivity.
Defined.

(** X5.  A call neither drops nor duplicates anything: the new flat list is
    a rearrangement of the old one, the new items and, when the insertion
    index is positive, one separator.  This holds for every menu and every
    [startIndex]. *)
Theorem addGroup_keeps_every_item (menu : JupyterLabMenu)
    (items : list IItemOptions) (rank : option number) :
  Permutation
    (menuItems (addGroup menu items rank))
    ((if 0 <? addGroup_insertIndex menu items rank then [separator] else [])
       ++ items ++ menuItems menu).
Proof. apply addGroup_Permutation. Qed.

(** X6.  Calls never remove or reorder what is already in the menu: the
    flat list before a sequence of calls is embedded, in order, in the flat
    list after it. *)
Theorem addGroups_keeps_order (calls : list (list IItemOptions * option number)) :
  forall menu : JupyterLabMenu,
    Embeds (menuItems menu) (menuItems (addGroups menu calls)).
Proof.
  induction calls as [| [items rank] calls IH]; intros menu;
    cbn [addGroups fold_left fst snd].
  - apply Embeds_refl.
  - eapply Embeds_trans; [apply addGroup_Embeds | apply IH].
Qed.

(** X7.  After any sequence of calls the items of the menu other than
    separators are those it had before together with those of all the
    groups passed, each as often as it was passed. *)
Theorem addGroups_content (calls : list (list IItemOptions * option number)) :
  forall menu : JupyterLabMenu,
    Permutation
      (withoutSeparators (menuItems (addGroups menu calls)))
      (withoutSeparators (menuItems menu ++ concat (map fst calls))).
Proof.
  unfold withoutSeparators.
  induction calls as [| [items rank] calls IH]; intros menu;
    cbn [addGroups fold_left fst snd map concat].
  - now rewrite app_nil_r.
  - fold (addGroups (addGroup menu items rank) calls). rewrite IH.
    rewrite !filter_app.
    rewrite (filter_Permutation _ (addGroup_Permutation menu items rank)).
    rewrite !filter_app.
    replace (filter _ (if 0 <? addGroup_insertIndex menu items rank
                       then [separator] else [])) with (@nil IItemOptions)
      by (destruct (0 <? addGroup_insertIndex menu items rank); reflexivity).
    cbn [app]. rewrite !app_assoc. apply Permutation_app_tail.
    apply Permutation_app_comm.
Qed.

(** X8.  With [startIndex = 0], a group whose rank is below the rank of
    every earlier call goes to the very front of the menu, before any item
    the menu was created with, and no separator is inserted. *)
Theorem lowest_rank_goes_first (flat : list IItemOptions)
    (calls : list (list IItemOptions * option number))
    (items : list IItemOptions) (rank : option number) :
  forallb (below rank) calls = true ->
  menuItems (addGroup (addGroups (mkMenu flat 0 []) calls) items rank)
  = items ++ menuItems (addGroups (mkMenu flat 0 []) calls).
Proof.
  intros Hlow.
  rewrite addGroup_menuItems by (rewrite addGroups_startIndex; cbn; lia).
  rewrite addGroup_insertIndex_eq.
  rewrite (addGroups_groupIndex_below (mkMenu flat 0 []) calls items rank
             eq_refl Hlow).
  rewrite addGroups_startIndex. reflexivity.
Qed.

(** X8, at scenario A: the rank-10 group against the earlier rank-50 one. *)
Lemma lowest_rank_goes_first_witness :
  menuItems (addGroup
               (addGroups (mkMenu [] 0 [])
                  [([Calls.a; Calls.b], Some (Num 50))])
               [Calls.c] (Some (Num 10)))
  = [Calls.c] ++ menuItems (addGroups (mkMenu [] 0 [])
                              [([Calls.a; Calls.b], Some (Num 50))]).
Proof.
  apply (lowest_rank_goes_first [] [([Calls.a; Calls.b], Some (Num 50))]
           [Calls.c] (Some (Num 10))).
  reflexivity.
Defined.

(** X9.  When [startIndex] lies within the menu, no sequence of calls
    touches the items before [startIndex]. *)
Theorem prefix_before_startIndex_kept
    (calls : list (list IItemOptions * option number)) :
  forall menu : JupyterLabMenu,
    0 <= startIndex menu <= Z.of_nat (length (menuItems menu)) ->
    firstn (Z.to_nat (startIndex menu)) (menuItems (addGroups menu calls))
    = firstn (Z.to_nat (startIndex menu)) (menuItems menu).
Proof.
  induction calls as [| [items rank] calls IH]; intros menu Hstart;
    cbn [addGroups fold_left fst snd].
  - reflexivity.
  - fold (addGroups (addGroup menu items rank) calls).
    rewrite <- (addGroup_prefix menu items rank Hstart).
    rewrite <- (addGroup_startIndex menu items rank).
    apply IH. rewrite addGroup_startIndex.
    pose proof (addGroup_menuItems_length menu items rank). lia.
Qed.

(** X9, at a menu with one fixed item and [startIndex = 1]. *)
Lemma prefix_before_startIndex_kept_witness :
  firstn (Z.to_nat (startIndex Calls.oneFixed))
    (menuItems (addGroups Calls.oneFixed Calls.rankOrder))
  = firstn (Z.to_nat (startIndex Calls.oneFixed)) (menuItems Calls.oneFixed).
Proof.
  apply (prefix_before_startIndex_kept Calls.rankOrder Calls.oneFixed).
  cbn. lia.
Defined.

(** X10.  With a positive [startIndex] every call inserts a separator, and
    the new items follow it directly. *)
Theorem positive_startIndex_separates (menu : JupyterLabMenu)
    (items : list IItemOptions) (rank : option number) :
  0 < startIndex menu ->
  exists before after,
    menuItems menu = before ++ after
    /\ menuItems (addGroup menu items rank)
       = before ++ separator :: items ++ after.
Proof.
  intros Hstart.
  exists (firstn (clampIndex (addGroup_insertIndex menu items rank)
                    (length (menuItems menu))) (menuItems menu)),
         (skipn (clampIndex (addGroup_insertIndex menu items rank)
                   (length (menuItems menu))) (menuItems menu)).
  split; [now rewrite firstn_skipn |].
  rewrite addGroup_menuItems by lia.
  pose proof (addGroup_insertIndex_eq menu items rank) as Hidx.
  destruct (Z.ltb_spec 0 (addGroup_insertIndex menu items rank)); [reflexivity |].
  nia.
Qed.

(** X10, at a menu with one fixed item and [startIndex = 1]. *)
Lemma positive_startIndex_separates_witness :
  exists before after,
    menuItems Calls.oneFixed = before ++ after
    /\ menuItems (addGroup Calls.oneFixed [Calls.a] None)
       = before ++ separator :: [Calls.a] ++ after.
Proof.
  apply (positive_startIndex_separates Calls.oneFixed [Calls.a] None).
  reflexivity.
Defined.

(** * Further properties of the kernel user registry *)

Section RegistryProperties.

Variables (Widget Result : Type).

Implicit Types (km : KernelMenu Widget Result) (u v : IKernelUser Widget Result)
  (w : Widget) (cw : option Widget) (a : KernelAction).

Lemma findFirstValue_snoc (T : Type) (l : list T) (x : T) (fn : T -> bool) :
  ArrayExt.findFirstValue (l ++ [x]) fn
  = match ArrayExt.findFirstValue l fn with
    | Some y => Some y
    | None => if fn x then Some x else None
    end.
Proof.
  induction l as [| y l IH]; cbn [app ArrayExt.findFirstValue].
  - reflexivity.
  - destruct (fn y); [reflexivity | exact IH].
Qed.

Lemma findUser_addUser km v cw :
  _findUser (addUser km v) cw
  = match _findUser km cw with
    | Some u => Some u
    | None =>
        match cw with
        | Some w => if tracker_has v w then Some v else None
        | None => None
        end
    end.
Proof.
  destruct cw as [w |]; [| reflexivity].
  cbn [_findUser addUser _users]. apply findFirstValue_snoc.
Qed.

Lemma findUser_addUsers (vs : list (IKernelUser Widget Result)) :
  forall km cw u,
    _findUser km cw = Some u ->
    _findUser (fold_left (@addUser Widget Result) vs km) cw = Some u.
Proof.
  induction vs as [| v vs IH]; intros km cw u Hu; cbn [fold_left].
  - exact Hu.
  - apply IH. now rewrite findUser_addUser, Hu.
Qed.

(** X11.  Registration never overrides: after [addUser] the lookup returns
    the user it returned before, and the new user only when there was none
    and the new user's tracker owns the focused widget. *)
Theorem findUser_after_addUser km v cw :
  _findUser (addUser km v) cw
  = match _findUser km cw with
    | Some u => Some u
    | None =>
        match cw with
        | Some w => if tracker_has v w then Some v else None
        | None => None
        end
    end.
Proof. apply findUser_addUser. Qed.

(** X12.  An action that is enabled stays enabled whatever users are
    registered afterwards, and its [execute] keeps returning the same. *)
Theorem enabled_stays_enabled a km cw (vs : list (IKernelUser Widget Result)) :
  isEnabled a km cw = true ->
  isEnabled a (fold_left (@addUser Widget Result) vs km) cw = true
  /\ execute a (fold_left (@addUser Widget Result) vs km) cw = execute a km cw.
Proof.
  rewrite !isEnabled_eq, !execute_eq.
  destruct (_findUser km cw) as [u |] eqn:Hu; [| discriminate].
  intros Hen. now rewrite (findUser_addUsers vs km cw Hu).
Qed.

(** X13.  The first owner of a widget shadows every later one: when it has
    no delegate for an action, the action stays disabled for that widget
    whatever users are registered afterwards, with or without a delegate. *)
Theorem first_owner_shadows a km w u (vs : list (IKernelUser Widget Result)) :
  firstOwner (_users km) w u ->
  delegateOf a u = None ->
  isEnabled a (fold_left (@addUser Widget Result) vs km) (Some w) = false.
Proof.
  intros Hown Hnone. apply findUser_firstOwner in Hown.
  rewrite isEnabled_eq, (findUser_addUsers vs km (Some w) Hown).
  cbn [hasDelegate]. now rewrite Hnone.
Qed.

(** X14.  Registering again a user that is already registered changes
    nothing for dispatch: enablement and execution stay as they were. *)
Theorem duplicate_user_no_effect a km u cw :
  In u (_users km) ->
  isEnabled a (addUser km u) cw = isEnabled a km cw
  /\ execute a (addUser km u) cw = execute a km cw.
Proof.
  intros Hin. rewrite !isEnabled_eq, !execute_eq.
  assert (H : _findUser (addUser km u) cw = _findUser km cw).
  { rewrite findUser_addUser.
    destruct (_findUser km cw) as [v |] eqn:Hfind; [reflexivity |].
    destruct cw as [w |]; [| reflexivity].
    apply findUser_none in Hfind. rewrite Forall_forall in Hfind.
    now rewrite (Hfind u Hin). }
  now rewrite H.
Qed.

End RegistryProperties.

(** X12, at scenario D's first user: restart stays enabled for kind X when
    [U2] and [U3] register. *)
Lemma enabled_stays_enabled_witness :
  isEnabled Restart
    (fold_left (@addUser bool bool) [Calls.U2; Calls.U3]
       (addUser (KernelMenu_new bool bool) Calls.U1)) (Some true) = true
  /\ execute Restart
       (fold_left (@addUser bool bool) [Calls.U2; Calls.U3]
          (addUser (KernelMenu_new bool bool) Calls.U1)) (Some true)
     = execute Restart (addUser (KernelMenu_new bool bool) Calls.U1) (Some true).
Proof.
  apply (enabled_stays_enabled Restart
           (addUser (KernelMenu_new bool bool) Calls.U1) (Some true)
           [Calls.U2; Calls.U3]).
  reflexivity.
Defined.

(** X13, with [U2] registered first: restart stays disabled for kind Y
    although [U3], registered later, owns kind Y and can restart. *)
Lemma first_owner_shadows_witness :
  isEnabled Restart
    (fold_left (@addUser bool bool) [Calls.U3]
       (addUser (KernelMenu_new bool bool) Calls.U2)) (Some false) = false.
Proof.
  apply (first_owner_shadows Restart
           (addUser (KernelMenu_new bool bool) Calls.U2) (w := false)
           (u := Calls.U2) [Calls.U3]).
  - exists [], []. split; [reflexivity | split; [reflexivity | constructor]].
  - reflexivity.
Defined.

(** X14, at scenario D with [U1] registered a second time. *)
Lemma duplicate_user_no_effect_witness :
  isEnabled Restart (addUser Calls.scenarioD Calls.U1) (Some true)
  = isEnabled Restart Calls.scenarioD (Some true)
  /\ execute Restart (addUser Calls.scenarioD Calls.U1) (Some true)
     = execute Restart Calls.scenarioD (Some true).
Proof.
  apply (duplicate_user_no_effect Restart Calls.scenarioD Calls.U1 (Some true)).
  left. reflexivity.
Defined.
